(** * broke: a durable append-only message log

    A shallow embedding of [broke/__init__.py]: the two header layouts, the
    writer ([BrokeWriter.store], [rollback], [dirty], [commit]), the block
    scanner ([iter_blocks]), the message codec ([iter_messages]) and the two
    readers ([read_messages], [read_messages_follow]).

    Conventions.
    - [bytes] is [list byte]; a Python [str] is a [string], whose characters
      above 127 stand for the code points the ascii codec refuses.
    - An exception is a value of [exn]; a function that may raise returns
      [exn + A].
    - A generator is modelled by the list of the values it yields together
      with the way it ends ([ending]).
    - [time.time()] is an input: the clock reading, in milliseconds, is an
      argument of the function that takes it. *)

From Stdlib Require Import String Ascii Strings.Byte.
From Stdlib Require Import List ZArith Lia Bool.
From coqutil Require Import Byte Word.LittleEndianList.
Import ListNotations.

#[local] Open Scope Z_scope.
#[local] Open Scope list_scope.

Set Warnings "-notation-for-abbreviation".

Notation bytes := (list byte).

(* ------------------------------------------------------------------ *)
(** ** Exceptions *)

Inductive exn : Type :=
| IOError (msg : string)      (* raise IOError(msg) *)
| TimeoutError (msg : string) (* raise TimeoutError(msg), from lock *)
| FieldError                  (* construct: a field got or found the wrong number of bytes *)
| ConstError                  (* construct: a Magic field read other bytes *)
| UnicodeError                (* the ascii codec met a character above 127 *)
| StructError                 (* struct.pack: integer out of the field's range *)
| OSError (msg : string).     (* a failing call on the file object *)

Notation result A := (exn + A)%type.
Notation Ok x := (inr x) (only parsing).
Notation Raise e := (inl e) (only parsing).

Definition bind {A B} (r : result A) (k : A -> result B) : result B :=
  match r with
  | inl e => inl e
  | inr a => k a
  end.

Notation "x <- r ;; k" := (bind r (fun x => k))
  (at level 61, r at next level, right associativity).
Notation "' p <- r ;; k" := (bind r (fun x => let p := x in k))
  (at level 61, p pattern, r at next level, right associativity).

(* ------------------------------------------------------------------ *)
(** ** zlib.crc32

    The checksum of the standard library: CRC-32 with the reflected
    polynomial 0xEDB88320, initial value and final xor 0xFFFFFFFF. *)

Definition crc_poly : Z := 0xEDB88320.

Definition crc_shift (c : Z) : Z :=
  Z.lxor (Z.shiftr c 1) (if Z.testbit c 0 then crc_poly else 0).

Definition crc_byte (c : Z) (b : byte) : Z :=
  Nat.iter 8 crc_shift (Z.lxor c (byte.unsigned b)).

Definition crc_update (c : Z) (bs : bytes) : Z := fold_left crc_byte bs c.

Definition crc32 (bs : bytes) : Z :=
  Z.lxor (crc_update 0xFFFFFFFF bs) 0xFFFFFFFF.

(** [_checksum(bytes)] *)
Definition _checksum (bs : bytes) : Z := crc32 bs.

(* ------------------------------------------------------------------ *)
(** ** construct fields *)

(** [ULInt32] / [ULInt64]: [n] bytes, little endian; building a value out
    of range raises. *)
Definition ULInt_build (n : nat) (v : Z) : result bytes :=
  if (0 <=? v) && (v <? 2 ^ (8 * Z.of_nat n)) then Ok (le_split n v)
  else Raise StructError.

(** Reading a field of [n] bytes off the stream: fewer bytes is an error. *)
Definition field (n : nat) (s : bytes) : result (bytes * bytes) :=
  if (length (firstn n s) =? n)%nat then Ok (firstn n s, skipn n s)
  else Raise FieldError.

Definition bytes_eqb (a b : bytes) : bool :=
  if list_eq_dec Byte.byte_eq_dec a b then true else false.

(** [Magic(data)]: on parsing, the bytes read must be [data]. *)
Definition Magic_parse (data : bytes) (s : bytes) : result bytes :=
  '(got, rest) <- field (length data) s ;;
  if bytes_eqb got data then Ok rest else Raise ConstError.

Definition ULInt_parse (n : nat) (s : bytes) : result (Z * bytes) :=
  '(got, rest) <- field n s ;;
  Ok (le_combine got, rest).

(** [Flag]: one byte, 1 for True and 0 for False; any other byte parses
    as the default, False. *)
Definition Flag_build (b : bool) : bytes := [if b then x01 else x00].

Definition Flag_parse (s : bytes) : result (bool * bytes) :=
  '(got, rest) <- field 1 s ;;
  Ok (bytes_eqb got [x01], rest).

(* ------------------------------------------------------------------ *)
(** ** The ascii codec and the padded topic *)

Definition is_ascii (c : ascii) : bool := (nat_of_ascii c <? 128)%nat.

Definition str_is_ascii (s : string) : bool :=
  forallb is_ascii (list_ascii_of_string s).

Definition ascii_encode (s : string) : result bytes :=
  if str_is_ascii s then Ok (list_byte_of_string s) else Raise UnicodeError.

Definition ascii_decode (b : bytes) : result string :=
  let s := string_of_list_byte b in
  if str_is_ascii s then Ok s else Raise UnicodeError.

Definition NUL : ascii := Ascii.zero.

(** [s.ljust(n, "\x00")] *)
Definition ljust (n : nat) (s : string) : string :=
  (s ++ string_of_list_ascii (repeat NUL (n - String.length s)))%string.

Fixpoint drop_nul (l : list ascii) : list ascii :=
  match l with
  | [] => []
  | c :: l' => if Ascii.eqb c NUL then drop_nul l' else l
  end.

(** [s.rstrip("\x00")] *)
Definition rstrip (s : string) : string :=
  string_of_list_ascii (rev (drop_nul (rev (list_ascii_of_string s)))).

(** [String(name, n, padchar="\x00", encoding="ascii")] *)
Definition String_build (n : nat) (s : string) : result bytes :=
  b <- ascii_encode (ljust n s) ;;
  if (length b =? n)%nat then Ok b else Raise FieldError.

Definition String_parse (n : nat) (s : bytes) : result (string * bytes) :=
  '(got, rest) <- field n s ;;
  t <- ascii_decode got ;;
  Ok (rstrip t, rest).

(* ------------------------------------------------------------------ *)
(** ** BlockHeader and MessageHeader *)

Definition block_magic : bytes := list_byte_of_string "BrokeHeader".

Record block_header : Type := {
  bh_length : Z;
  bh_checksum : Z;
  bh_committed : bool
}.

Definition BlockHeader_build (h : block_header) : result bytes :=
  len <- ULInt_build 4 (bh_length h) ;;
  sum <- ULInt_build 4 (bh_checksum h) ;;
  Ok (block_magic ++ len ++ sum ++ Flag_build (bh_committed h) ++ repeat x00 16).

Definition BlockHeader_parse (s : bytes) : result block_header :=
  s <- Magic_parse block_magic s ;;
  '(len, s) <- ULInt_parse 4 s ;;
  '(sum, s) <- ULInt_parse 4 s ;;
  '(flag, s) <- Flag_parse s ;;
  _ <- Magic_parse (repeat x00 16) s ;;
  Ok {| bh_length := len; bh_checksum := sum; bh_committed := flag |}.

Definition BlockHeader_sizeof : nat := 36.

Record message_header : Type := {
  mh_length : Z;
  mh_timestamp : Z;
  mh_topic : string
}.

Definition MessageHeader_build (h : message_header) : result bytes :=
  len <- ULInt_build 4 (mh_length h) ;;
  ts <- ULInt_build 8 (mh_timestamp h) ;;
  topic <- String_build 64 (mh_topic h) ;;
  Ok (repeat x00 8 ++ len ++ ts ++ topic).

Definition MessageHeader_parse (s : bytes) : result message_header :=
  s <- Magic_parse (repeat x00 8) s ;;
  '(len, s) <- ULInt_parse 4 s ;;
  '(ts, s) <- ULInt_parse 8 s ;;
  '(topic, s) <- String_parse 64 s ;;
  Ok {| mh_length := len; mh_timestamp := ts; mh_topic := topic |}.

Definition MessageHeader_sizeof : nat := 84.

(** [EMPTY_HEADER] *)
Definition EMPTY_HEADER : bytes := repeat x00 BlockHeader_sizeof.

(** [Message = namedtuple("Message", ["topic", "time", "payload"])] *)
Record Message : Type := {
  topic : string;
  time : Z;
  payload : bytes
}.

(* ------------------------------------------------------------------ *)
(** ** gzip

    [gzip.GzipFile] belongs to the standard library and is taken as an
    interface: what a stream opened for writing leaves in its file object
    once closed, as a function of the bytes written to it (the time the
    stream puts in its own header is left out), and what a stream opened for
    reading delivers.  Reading back what was written gives the same bytes,
    and a closed stream is never empty (it holds at least the gzip header
    and trailer). *)

Class Gzip : Type := {
  gz_compress : bytes -> bytes;
  gz_decompress : bytes -> result bytes;
  gz_roundtrip : forall x, gz_decompress (gz_compress x) = Ok x;
  gz_nonempty : forall x, gz_compress x <> []
}.

(* ------------------------------------------------------------------ *)
(** ** Python values, as far as [isinstance] tells them apart *)

Inductive pyobj : Type :=
| PyBytes (b : bytes)
| PyStr (s : string)
| PyInt (z : Z)
| PyNone.

(* ------------------------------------------------------------------ *)
(** ** The file object and its environment *)

(** The calls [commit] makes on the data file, as they appear in [calls]. *)
Inductive call : Type :=
| Open                    (* open(self.datafile, mode="rb+") *)
| LockEx                  (* portalocker.lock(fp, LOCK_EX) succeeded *)
| SeekEnd                 (* fp.seek(0, os.SEEK_END) *)
| Tell                    (* fp.tell() *)
| Write (b : bytes)       (* fp.write(b) *)
| Seek (n : nat)          (* fp.seek(n) *)
| Flush                   (* fp.flush() *)
| Truncate (n : nat)      (* fp.truncate(n) *)
| Unlock                  (* portalocker.unlock(fp) *)
| Close.                  (* leaving [with open(...)] *)

(** A failing call: the exception it raises and, for a write, how many
    bytes reached the file before it. *)
Record fault : Type := {
  fault_exn : exn;
  fault_partial : nat
}.

(** What [lock] meets: the clock when it starts, and the clock after each
    try that found the file locked by someone else (milliseconds).  The try
    after the last of them succeeds. *)
Record contention : Type := {
  lk_start : Z;
  lk_busy : list Z
}.

Record world : Type := {
  disk : bytes;                  (* the content of the data file *)
  fpos : nat;                    (* the position of the open file object *)
  calls : list call;             (* the calls made so far, oldest first *)
  stdout : list string;          (* what print wrote *)
  faults : list (option fault);  (* the outcome of each next call on fp; none left: success *)
  locks : list contention        (* what each next lock() meets; none left: a free file *)
}.

Definition set_disk (d : bytes) (s : world) : world :=
  {| disk := d; fpos := fpos s; calls := calls s; stdout := stdout s;
     faults := faults s; locks := locks s |}.

Definition set_fpos (p : nat) (s : world) : world :=
  {| disk := disk s; fpos := p; calls := calls s; stdout := stdout s;
     faults := faults s; locks := locks s |}.

Definition log (c : call) (s : world) : world :=
  {| disk := disk s; fpos := fpos s; calls := calls s ++ [c]; stdout := stdout s;
     faults := faults s; locks := locks s |}.

Definition print (m : string) (s : world) : world :=
  {| disk := disk s; fpos := fpos s; calls := calls s; stdout := stdout s ++ [m];
     faults := faults s; locks := locks s |}.

Definition next_fault (s : world) : option fault * world :=
  (match faults s with f :: _ => f | [] => None end,
   {| disk := disk s; fpos := fpos s; calls := calls s; stdout := stdout s;
      faults := tl (faults s); locks := locks s |}).

Definition pop_lock (s : world) : world :=
  {| disk := disk s; fpos := fpos s; calls := calls s; stdout := stdout s;
     faults := faults s; locks := tl (locks s) |}.

(** Code that acts on the world and may raise. *)
Definition io (A : Type) : Type := world -> world * result A.

Definition ret {A} (a : A) : io A := fun s => (s, Ok a).
Definition raise {A} (e : exn) : io A := fun s => (s, Raise e).

Definition iobind {A B} (m : io A) (k : A -> io B) : io B :=
  fun s => match m s with
           | (s', inl e) => (s', inl e)
           | (s', inr a) => k a s'
           end.

Notation "x <~ m ;; k" := (iobind m (fun x => k))
  (at level 61, m at next level, right associativity).
Notation "m ;;; k" := (iobind m (fun _ => k))
  (at level 61, right associativity).

(** [try: body  except: handler; raise] *)
Definition try_reraise {A} (body : io A) (handler : io unit) : io A :=
  fun s => match body s with
           | (s', inl e) => (fst (handler s'), inl e)
           | r => r
           end.

(** [try: body  except: handler] where the handler ends normally *)
Definition try_except (body : io unit) (handler : world -> world) : io unit :=
  fun s => match body s with
           | (s', inl _) => (handler s', Ok tt)
           | r => r
           end.

(** [try: body  finally: cleanup], also the exit of a [with] block *)
Definition finally {A} (body : io A) (cleanup : world -> world) : io A :=
  fun s => let (s', r) := body s in (cleanup s', r).

(** Bytes [b] written at offset [p] of a file holding [d]; a gap past the
    end reads as zeros. *)
Definition write_at (d : bytes) (p : nat) (b : bytes) : bytes :=
  firstn p d ++ repeat x00 (p - length d) ++ b ++ skipn (p + length b) d.

Definition truncate_to (d : bytes) (n : nat) : bytes :=
  firstn n d ++ repeat x00 (n - length d).

(** A call on the file object that changes the world by [effect] unless the
    environment makes it fail. *)
Definition fp_call (c : call) (effect : world -> world) : io unit :=
  fun s => let (f, s) := next_fault (log c s) in
           match f with
           | Some fl => (s, Raise (fault_exn fl))
           | None => (effect s, Ok tt)
           end.

Definition fp_open : io unit := fp_call Open (set_fpos 0).

Definition fp_seek_end : io unit :=
  fp_call SeekEnd (fun s => set_fpos (length (disk s)) s).

Definition fp_seek (n : nat) : io unit := fp_call (Seek n) (set_fpos n).

Definition fp_tell : io nat :=
  fun s => let (s', r) := fp_call Tell (fun s => s) s in
           (s', bind r (fun _ => Ok (fpos s'))).

Definition put (b : bytes) (s : world) : world :=
  set_fpos (fpos s + length b) (set_disk (write_at (disk s) (fpos s) b) s).

Definition fp_write (b : bytes) : io unit :=
  fun s => let (f, s) := next_fault (log (Write b) s) in
           match f with
           | Some fl => (put (firstn (fault_partial fl) b) s, Raise (fault_exn fl))
           | None => (put b s, Ok tt)
           end.

Definition fp_flush : io unit := fp_call Flush (fun s => s).

Definition fp_truncate (n : nat) : io unit :=
  fp_call (Truncate n) (fun s => set_disk (truncate_to (disk s) n) s).

Definition fp_close (s : world) : world := log Close s.

(* ------------------------------------------------------------------ *)
(** ** lock *)

Definition lock_timeout : Z := 5000.

(** The retry loop of [lock]: each try that fails reads the clock and gives
    up when more than [timeout] has passed since [start]; otherwise it
    sleeps and tries again. *)
Fixpoint lock_tries (timeout start : Z) (busy : list Z) : result unit :=
  match busy with
  | [] => Ok tt
  | t :: busy' =>
      if t - start >? timeout then Raise (TimeoutError "Could not lock file")
      else lock_tries timeout start busy'
  end.

(** What the next call of [lock] ends with. *)
Definition take_lock (l : list contention) : result unit :=
  match l with
  | [] => Ok tt
  | c :: _ => lock_tries lock_timeout (lk_start c) (lk_busy c)
  end.

(** [with lock(fp): body] *)
Definition with_lock {A} (body : io A) : io A :=
  fun s => match take_lock (locks s) with
           | inl e => (pop_lock s, inl e)
           | inr _ => finally body (log Unlock) (log LockEx (pop_lock s))
           end.

(* ------------------------------------------------------------------ *)
(** ** BrokeWriter *)

(** [buffer] holds the bytes written to the gzip stream [self.buffer] since
    it was opened; [self.buffer.tell()] is their number, and closing the
    stream leaves [gz_compress buffer] in [self.raw_buffer]. *)
Record BrokeWriter : Type := {
  datafile : string;
  buffer : bytes
}.

Definition BrokeWriter_init (path : string) : BrokeWriter :=
  {| datafile := path; buffer := [] |}.

Definition buffer_write (b : bytes) (self : BrokeWriter) : BrokeWriter :=
  {| datafile := datafile self; buffer := buffer self ++ b |}.

Definition store (self : BrokeWriter) (now : Z) (topic payload : pyobj)
  : BrokeWriter * result unit :=
  match payload with
  | PyBytes p =>
      match topic with
      | PyStr t =>
          match MessageHeader_build
                  {| mh_length := Z.of_nat (length p);
                     mh_timestamp := now;
                     mh_topic := t |} with
          | inl e => (self, Raise e)
          | inr header => (buffer_write p (buffer_write header self), Ok tt)
          end
      | _ => (self, Raise (IOError "Topic must be str"))
      end
  | _ => (self, Raise (IOError "Can only store data of type bytes"))
  end.

Definition rollback (self : BrokeWriter) : BrokeWriter :=
  {| datafile := datafile self; buffer := [] |}.

Definition dirty (self : BrokeWriter) : bool := (0 <? length (buffer self))%nat.

Section Writer.
Context `{Gzip}.

(** Lines 102 to 130 of [commit]: the block is built and appended. *)
Definition append_block (compressed : bytes) : io unit :=
  let checksum := _checksum compressed in
  let header := {| bh_length := Z.of_nat (length compressed);
                   bh_checksum := checksum;
                   bh_committed := false |} in
  match BlockHeader_build header with
  | inl e => raise e
  | inr header_bytes =>
      fp_open ;;;
      finally
        (with_lock
           (fp_seek_end ;;;
            start <~ fp_tell ;;
            try_reraise
              (fp_write header_bytes ;;;
               fp_write compressed ;;;
               fp_seek start ;;;
               match BlockHeader_build
                       {| bh_length := bh_length header;
                          bh_checksum := bh_checksum header;
                          bh_committed := true |} with
               | inl e => raise e
               | inr committed_bytes =>
                   fp_write committed_bytes ;;;
                   fp_flush
               end)
              (try_except (fp_truncate start) (print "Could not truncate file"))))
        fp_close
  end.

Definition commit (self : BrokeWriter) (s : world)
  : BrokeWriter * world * result unit :=
  if negb (dirty self) then (self, s, Ok tt)
  else
    let compressed := gz_compress (buffer self) in
    let self := rollback self in
    let (s', r) := append_block compressed s in
    (self, s', r).

(** [__exit__(exc_type, ...)]: [failed] tells whether the block raised. *)
Definition __exit__ (self : BrokeWriter) (failed : bool) (s : world)
  : BrokeWriter * world * result unit :=
  if failed then (rollback self, s, Ok tt) else commit self s.

End Writer.

(* ------------------------------------------------------------------ *)
(** ** Reading *)

(** A reader's file object: its position, and what its next [lock] calls
    meet. *)
Record handle : Type := {
  pos : nat;
  hlocks : list contention
}.

(** How a generator ends: its loop is left ([Stop], with the state of the
    file object at that point), an exception leaves it ([Raises]), or the
    model's fuel is spent. *)
Inductive ending (S : Type) : Type :=
| Stop (s : S)
| Raises (e : exn)
| OutOfFuel.
Arguments Stop {S} s.
Arguments Raises {S} e.
Arguments OutOfFuel {S}.

(** [fp.read(n)] at offset [p]: the bytes returned. *)
Definition read (data : bytes) (p n : nat) : bytes := firstn n (skipn p data).

(** [read_fully(fp, length)] at offset [p] *)
Definition read_fully (data : bytes) (p n : nat) : result bytes :=
  let result := read data p n in
  if negb (length result =? n)%nat then Raise (IOError "short read")
  else Ok result.

(** One turn of the loop of [iter_blocks]. *)
Inductive turn : Type :=
| Break
| Continue (p : nat)
| Yield (block : bytes) (p : nat)
| Raised (e : exn).

Definition iter_blocks_turn (data : bytes) (p : nat) : turn :=
  let header_bytes := read data p BlockHeader_sizeof in
  let p := (p + length header_bytes)%nat in
  match header_bytes with
  | [] => Break
  | _ =>
      match BlockHeader_parse header_bytes with
      | inl e => Raised e
      | inr header =>
          if bh_length header =? 0 then Continue p
          else if negb (bh_committed header)
          then Continue (p + Z.to_nat (bh_length header))
          else
            match read_fully data p (Z.to_nat (bh_length header)) with
            | inl e => Raised e
            | inr block_bytes =>
                if negb (_checksum block_bytes =? bh_checksum header)
                then Raised (IOError "checksum for block invalid")
                else Yield block_bytes (p + length block_bytes)
            end
      end
  end.

Fixpoint iter_blocks_loop (fuel : nat) (data : bytes) (fp : handle)
  : list bytes * ending handle :=
  match fuel with
  | O => ([], OutOfFuel)
  | S fuel =>
      match take_lock (hlocks fp) with
      | inl e => ([], Raises e)
      | inr _ =>
          let l := tl (hlocks fp) in
          match iter_blocks_turn data (pos fp) with
          | Break => ([], Stop {| pos := pos fp; hlocks := l |})
          | Continue p => iter_blocks_loop fuel data {| pos := p; hlocks := l |}
          | Yield block p =>
              let (blocks, e) := iter_blocks_loop fuel data {| pos := p; hlocks := l |} in
              (block :: blocks, e)
          | Raised e => ([], Raises e)
          end
      end
  end.

(** [iter_blocks(fp)] on a file holding [data]: a turn that does not leave
    the loop moves at least one byte forward, so the length of the file
    bounds the number of turns. *)
Definition iter_blocks (data : bytes) (fp : handle) : list bytes * ending handle :=
  iter_blocks_loop (S (length data)) data fp.

Fixpoint iter_messages_loop (fuel : nat) (data : bytes) (p : nat)
  : list Message * ending unit :=
  match fuel with
  | O => ([], OutOfFuel)
  | S fuel =>
      let header_bytes := read data p MessageHeader_sizeof in
      let p := (p + length header_bytes)%nat in
      match header_bytes with
      | [] => ([], Stop tt)
      | _ =>
          match MessageHeader_parse header_bytes with
          | inl e => ([], Raises e)
          | inr header =>
              match read_fully data p (Z.to_nat (mh_length header)) with
              | inl e => ([], Raises e)
              | inr payload =>
                  let (ms, e) := iter_messages_loop fuel data (p + length payload) in
                  ({| topic := mh_topic header;
                      time := mh_timestamp header;
                      payload := payload |} :: ms, e)
              end
          end
      end
  end.

(** [iter_messages(fp)] on a stream delivering [data] *)
Definition iter_messages (data : bytes) : list Message * ending unit :=
  iter_messages_loop (S (length data)) data 0.

Section Reader.
Context `{Gzip}.

(** The body of the loop of [read_messages], for one block. *)
Definition block_messages (block : bytes) : list Message * ending unit :=
  match gz_decompress block with
  | inl e => ([], Raises e)
  | inr data => iter_messages data
  end.

(** [for block in blocks: yield from iter_messages(...)], where the
    generator [blocks] ends with [e]. *)
Fixpoint yield_from_blocks (blocks : list bytes) (e : ending handle)
  : list Message * ending handle :=
  match blocks with
  | [] => ([], e)
  | block :: blocks =>
      match block_messages block with
      | (ms, Stop _) =>
          let (ms', e') := yield_from_blocks blocks e in (ms ++ ms', e')
      | (ms, Raises x) => (ms, Raises x)
      | (ms, OutOfFuel) => (ms, OutOfFuel)
      end
  end.

Definition read_messages (data : bytes) (fp : handle) : list Message * ending handle :=
  let (blocks, e) := iter_blocks data fp in
  yield_from_blocks blocks e.

(** [read_messages_follow(fp)]: the loop never ends by itself.  [arrivals]
    lists, for each turn of the loop, the bytes other processes append
    to the file before the scan of that turn begins (during the sleep of
    the turn before, or before the call); the result lists what each turn
    yields.  When the arrivals are used up the generator is asleep, with
    the file and the file object in the state returned. *)
Fixpoint read_messages_follow (arrivals : list bytes) (data : bytes) (fp : handle)
  : list (list Message) * ending (bytes * handle) :=
  match arrivals with
  | [] => ([], Stop (data, fp))
  | new :: arrivals =>
      let data := data ++ new in
      match read_messages data fp with
      | (ms, Stop fp) =>
          let (rounds, e) := read_messages_follow arrivals data fp in
          (ms :: rounds, e)
      | (ms, Raises x) => ([ms], Raises x)
      | (ms, OutOfFuel) => ([ms], OutOfFuel)
      end
  end.

End Reader.

(* ------------------------------------------------------------------ *)
(** ** A gzip for the examples

    The smallest stream that meets the interface: the two bytes every gzip
    stream starts with, then the data as they are. *)

Definition stored_compress (x : bytes) : bytes := x1f :: x8b :: x.

Definition stored_decompress (b : bytes) : result bytes :=
  match b with
  | x1f :: x8b :: x => Ok x
  | _ => Raise (OSError "Not a gzipped file")
  end.

Lemma stored_nonempty (x : bytes) : stored_compress x <> [].
Proof. discriminate. Qed.

#[export] Instance stored_gzip : Gzip := {|
  gz_compress := stored_compress;
  gz_decompress := stored_decompress;
  gz_roundtrip := fun x => eq_refl;
  gz_nonempty := stored_nonempty
|}.

(** An empty file nobody else uses, on a system where no call fails. *)
Definition quiet (d : bytes) : world :=
  {| disk := d; fpos := 0; calls := []; stdout := []; faults := []; locks := [] |}.

Definition rewound : handle := {| pos := 0; hlocks := [] |}.

(* ================================================================== *)
(** * Properties *)

(** ** The codec *)

Example crc32_check : crc32 (list_byte_of_string "123456789") = 0xCBF43926.
Proof. vm_compute. reflexivity. Qed.

Lemma bytes_eqb_refl (a : bytes) : bytes_eqb a a = true.
Proof. unfold bytes_eqb. destruct (list_eq_dec _ a a); congruence. Qed.

Lemma bytes_eqb_eq (a b : bytes) : bytes_eqb a b = true <-> a = b.
Proof.
  unfold bytes_eqb. destruct (list_eq_dec _ a b); split; congruence.
Qed.

Lemma field_app (n : nat) (a s : bytes) :
  length a = n -> field n (a ++ s) = Ok (a, s).
Proof.
  intros <-. unfold field.
  rewrite firstn_app, firstn_all, Nat.sub_diag, firstn_O, app_nil_r.
  rewrite Nat.eqb_refl, skipn_app, skipn_all, Nat.sub_diag. reflexivity.
Qed.

Lemma field_short (n : nat) (s : bytes) :
  (length s < n)%nat -> field n s = Raise FieldError.
Proof.
  intros L. unfold field. rewrite length_firstn.
  destruct (Nat.eqb_spec (Nat.min n (length s)) n); [lia | reflexivity].
Qed.

Lemma field_ok (n : nat) (s a r : bytes) :
  field n s = Ok (a, r) -> s = a ++ r /\ length a = n.
Proof.
  unfold field. destruct (Nat.eqb_spec (length (firstn n s)) n); [|discriminate].
  intros [= <- <-]. split; [symmetry; apply firstn_skipn | assumption].
Qed.

Lemma Magic_parse_app (d s : bytes) : Magic_parse d (d ++ s) = Ok s.
Proof.
  unfold Magic_parse. rewrite field_app by reflexivity. cbn.
  now rewrite bytes_eqb_refl.
Qed.

Lemma ULInt_build_ok (n : nat) (v : Z) :
  0 <= v < 2 ^ (8 * Z.of_nat n) -> ULInt_build n v = Ok (le_split n v).
Proof.
  intros [L U]. unfold ULInt_build.
  apply Z.leb_le in L. apply Z.ltb_lt in U. now rewrite L, U.
Qed.

Lemma ULInt_build_inv (n : nat) (v : Z) (b : bytes) :
  ULInt_build n v = Ok b -> 0 <= v < 2 ^ (8 * Z.of_nat n) /\ b = le_split n v.
Proof.
  unfold ULInt_build.
  destruct (Z.leb_spec 0 v), (Z.ltb_spec v (2 ^ (8 * Z.of_nat n))); cbn;
    try discriminate.
  intros [= <-]. auto.
Qed.

Lemma ULInt_parse_split (n : nat) (v : Z) (s : bytes) :
  0 <= v < 2 ^ (8 * Z.of_nat n) ->
  ULInt_parse n (le_split n v ++ s) = Ok (v, s).
Proof.
  intros R. unfold ULInt_parse.
  rewrite field_app by apply length_le_split. cbn.
  rewrite le_combine_split, Z.mod_small; [reflexivity|].
  now rewrite Z.mul_comm.
Qed.

Lemma Flag_parse_build (b : bool) (s : bytes) :
  Flag_parse (Flag_build b ++ s) = Ok (b, s).
Proof. destruct b; reflexivity. Qed.

(** *** CRC-32 *)

Lemma lxor_range (n a b : Z) :
  0 <= n -> 0 <= a < 2 ^ n -> 0 <= b < 2 ^ n -> 0 <= Z.lxor a b < 2 ^ n.
Proof.
  intros N A B.
  assert (P : 0 <= Z.lxor a b) by (apply Z.lxor_nonneg; lia).
  split; [assumption|].
  destruct (Z.eq_dec (Z.lxor a b) 0) as [->|NZ]; [lia|].
  assert (0 < n).
  { destruct (Z.eq_dec n 0) as [->|]; [|lia].
    replace a with 0 in NZ by lia. replace b with 0 in NZ by lia. easy. }
  apply Z.log2_lt_pow2; [lia|].
  eapply Z.le_lt_trans; [apply Z.log2_lxor; lia|].
  apply Z.max_lub_lt.
  - destruct (Z.eq_dec a 0) as [->|]; [cbn; lia|]. apply Z.log2_lt_pow2; lia.
  - destruct (Z.eq_dec b 0) as [->|]; [cbn; lia|]. apply Z.log2_lt_pow2; lia.
Qed.

Lemma lxor_cancel_r (a b c : Z) : Z.lxor a c = Z.lxor b c -> a = b.
Proof.
  intros E.
  rewrite <- (Z.lxor_0_r a), <- (Z.lxor_0_r b), <- (Z.lxor_nilpotent c).
  rewrite <- !Z.lxor_assoc. now rewrite E.
Qed.

Lemma lxor_cancel_l (a b c : Z) : Z.lxor c a = Z.lxor c b -> a = b.
Proof. rewrite !(Z.lxor_comm c). apply lxor_cancel_r. Qed.

Lemma shiftr1_range (c : Z) : 0 <= c < 2 ^ 32 -> 0 <= Z.shiftr c 1 < 2 ^ 31.
Proof.
  intros R. rewrite Z.shiftr_div_pow2 by lia. change (2 ^ 1) with 2.
  split; [apply Z.div_pos; lia | apply Z.div_lt_upper_bound; lia].
Qed.

Lemma crc_shift_range (c : Z) : 0 <= c < 2 ^ 32 -> 0 <= crc_shift c < 2 ^ 32.
Proof.
  intros R. unfold crc_shift. pose proof (shiftr1_range c R).
  apply lxor_range; [lia | lia |].
  destruct (Z.testbit c 0); unfold crc_poly; lia.
Qed.

(** One shift loses nothing: the top bit of the result tells whether the
    polynomial was added. *)
Lemma crc_shift_inj (c d : Z) :
  0 <= c < 2 ^ 32 -> 0 <= d < 2 ^ 32 -> crc_shift c = crc_shift d -> c = d.
Proof.
  intros C D E. unfold crc_shift in E.
  pose proof (shiftr1_range c C) as SC. pose proof (shiftr1_range d D) as SD.
  assert (X : forall a b, 0 <= a < 2 ^ 31 -> 0 <= b < 2 ^ 31 ->
                          Z.lxor a crc_poly <> Z.lxor b 0).
  { intros a b A B F. rewrite Z.lxor_0_r in F.
    assert (G : crc_poly = Z.lxor a b).
    { apply (lxor_cancel_l _ _ a). rewrite F.
      now rewrite <- Z.lxor_assoc, Z.lxor_nilpotent, Z.lxor_0_l. }
    pose proof (lxor_range 31 a b ltac:(lia) A B). unfold crc_poly in G. lia. }
  assert (O : Z.testbit c 0 = Z.testbit d 0).
  { destruct (Z.testbit c 0), (Z.testbit d 0); try reflexivity; exfalso.
    - now apply (X _ _ SC SD).
    - symmetry in E. now apply (X _ _ SD SC). }
  rewrite O in E. apply lxor_cancel_r in E.
  rewrite !Z.bit0_odd in O. rewrite !Z.shiftr_div_pow2 in E by lia.
  change (2 ^ 1) with 2 in E.
  rewrite (Z.div2_odd c), (Z.div2_odd d), !Z.div2_div, E, O. reflexivity.
Qed.

Lemma iter_crc_shift_range (n : nat) (c : Z) :
  0 <= c < 2 ^ 32 -> 0 <= Nat.iter n crc_shift c < 2 ^ 32.
Proof.
  intros R. induction n as [|n IH]; [exact R|].
  change (Nat.iter (S n) crc_shift c) with (crc_shift (Nat.iter n crc_shift c)).
  now apply crc_shift_range.
Qed.

Lemma iter_crc_shift_inj (n : nat) (c d : Z) :
  0 <= c < 2 ^ 32 -> 0 <= d < 2 ^ 32 ->
  Nat.iter n crc_shift c = Nat.iter n crc_shift d -> c = d.
Proof.
  intros C D. induction n as [|n IH]; [auto|].
  change (Nat.iter (S n) crc_shift c) with (crc_shift (Nat.iter n crc_shift c)).
  change (Nat.iter (S n) crc_shift d) with (crc_shift (Nat.iter n crc_shift d)).
  intros E. apply IH, crc_shift_inj; auto using iter_crc_shift_range.
Qed.

Lemma byte_range32 (b : byte) : 0 <= byte.unsigned b < 2 ^ 32.
Proof. pose proof (byte.unsigned_range b). lia. Qed.

Lemma crc_byte_eq (c : Z) (b : byte) :
  crc_byte c b = Nat.iter 8 crc_shift (Z.lxor c (byte.unsigned b)).
Proof. reflexivity. Qed.

Lemma crc_update_cons (c : Z) (b : byte) (bs : bytes) :
  crc_update c (b :: bs) = crc_update (crc_byte c b) bs.
Proof. reflexivity. Qed.

Lemma crc_update_app (c : Z) (xs ys : bytes) :
  crc_update c (xs ++ ys) = crc_update (crc_update c xs) ys.
Proof. apply fold_left_app. Qed.

#[global] Opaque crc_byte.

Lemma mixed_range (c : Z) (b : byte) :
  0 <= c < 2 ^ 32 -> 0 <= Z.lxor c (byte.unsigned b) < 2 ^ 32.
Proof. intros R. apply lxor_range; auto using byte_range32. lia. Qed.

Lemma crc_byte_range (c : Z) (b : byte) :
  0 <= c < 2 ^ 32 -> 0 <= crc_byte c b < 2 ^ 32.
Proof.
  intros R. rewrite crc_byte_eq. apply iter_crc_shift_range, mixed_range, R.
Qed.

Lemma crc_update_range (bs : bytes) (c : Z) :
  0 <= c < 2 ^ 32 -> 0 <= crc_update c bs < 2 ^ 32.
Proof.
  revert c. induction bs as [|b bs IH]; intros c R; [exact R|].
  rewrite crc_update_cons. apply IH, crc_byte_range, R.
Qed.

Lemma crc32_range (bs : bytes) : 0 <= crc32 bs < 2 ^ 32.
Proof.
  apply lxor_range; [lia | | lia]. apply crc_update_range. lia.
Qed.

Lemma crc_byte_inj_state (c d : Z) (b : byte) :
  0 <= c < 2 ^ 32 -> 0 <= d < 2 ^ 32 -> crc_byte c b = crc_byte d b -> c = d.
Proof.
  intros C D E. rewrite !crc_byte_eq in E.
  apply (iter_crc_shift_inj 8) in E; [| now apply mixed_range..].
  eapply lxor_cancel_r, E.
Qed.

Lemma crc_byte_inj_byte (c : Z) (a b : byte) :
  0 <= c < 2 ^ 32 -> crc_byte c a = crc_byte c b -> a = b.
Proof.
  intros C E. rewrite !crc_byte_eq in E.
  apply (iter_crc_shift_inj 8) in E; [| now apply mixed_range..].
  eapply byte.unsigned_inj, lxor_cancel_l, E.
Qed.

Lemma crc_update_inj_state (bs : bytes) (c d : Z) :
  0 <= c < 2 ^ 32 -> 0 <= d < 2 ^ 32 ->
  crc_update c bs = crc_update d bs -> c = d.
Proof.
  revert c d. induction bs as [|b bs IH]; intros c d C D E; [exact E|].
  rewrite !crc_update_cons in E.
  eapply crc_byte_inj_state; eauto.
  apply (IH _ _ (crc_byte_range c b C) (crc_byte_range d b D) E).
Qed.

(** Two byte strings that differ in one byte only have different
    checksums. *)
Lemma crc32_one_byte (pre post : bytes) (a b : byte) :
  a <> b -> crc32 (pre ++ a :: post) <> crc32 (pre ++ b :: post).
Proof.
  intros N E. apply N. unfold crc32 in E. apply lxor_cancel_r in E.
  rewrite !crc_update_app, !crc_update_cons in E.
  assert (R : 0 <= crc_update 0xFFFFFFFF pre < 2 ^ 32)
    by (apply crc_update_range; lia).
  eapply crc_byte_inj_byte; eauto.
  apply (crc_update_inj_state post _ _ (crc_byte_range _ a R) (crc_byte_range _ b R) E).
Qed.

(** *** Strings *)

Lemma list_ascii_of_string_app (s t : string) :
  list_ascii_of_string (s ++ t) = list_ascii_of_string s ++ list_ascii_of_string t.
Proof. induction s; cbn; congruence. Qed.

Lemma length_list_ascii (s : string) :
  length (list_ascii_of_string s) = String.length s.
Proof. induction s; cbn; congruence. Qed.

Lemma length_list_byte (s : string) :
  length (list_byte_of_string s) = String.length s.
Proof. unfold list_byte_of_string. now rewrite length_map, length_list_ascii. Qed.

Lemma list_ascii_ljust (n : nat) (s : string) :
  list_ascii_of_string (ljust n s) =
  list_ascii_of_string s ++ repeat NUL (n - String.length s).
Proof.
  unfold ljust.
  now rewrite list_ascii_of_string_app, list_ascii_of_string_of_list_ascii.
Qed.

Lemma length_ljust (n : nat) (s : string) :
  String.length (ljust n s) = Nat.max n (String.length s).
Proof.
  rewrite <- !length_list_ascii, list_ascii_ljust, length_app, repeat_length.
  rewrite length_list_ascii. lia.
Qed.

Lemma str_is_ascii_ljust (n : nat) (s : string) :
  str_is_ascii (ljust n s) = str_is_ascii s.
Proof.
  unfold str_is_ascii. rewrite list_ascii_ljust, forallb_app.
  replace (forallb is_ascii (repeat NUL _)) with true; [apply andb_true_r|].
  symmetry. apply forallb_forall. intros c I. apply repeat_spec in I. now subst.
Qed.

Lemma drop_nul_repeat (k : nat) (l : list ascii) :
  drop_nul (repeat NUL k ++ l) = drop_nul l.
Proof. induction k; cbn; auto. Qed.

Lemma rev_repeat {A} (a : A) (k : nat) : rev (repeat a k) = repeat a k.
Proof.
  induction k; cbn; [reflexivity|]. rewrite IHk.
  change [a] with (repeat a 1). rewrite <- repeat_app.
  now rewrite Nat.add_comm.
Qed.

(** Padding does not show after trimming. *)
Lemma rstrip_ljust (n : nat) (s : string) : rstrip (ljust n s) = rstrip s.
Proof.
  unfold rstrip. rewrite list_ascii_ljust, rev_app_distr, rev_repeat.
  now rewrite drop_nul_repeat.
Qed.

Lemma rstrip_idem (s : string) : rstrip (rstrip s) = rstrip s.
Proof.
  unfold rstrip. rewrite list_ascii_of_string_of_list_ascii, rev_involutive.
  f_equal. f_equal.
  induction (rev (list_ascii_of_string s)) as [|c l IH]; cbn; [reflexivity|].
  destruct (Ascii.eqb c NUL) eqn:E; [assumption|]. cbn. now rewrite E.
Qed.

(** A string that does not end in a null character is left as it is. *)
Lemma rstrip_id (s : string) :
  last (list_ascii_of_string s) "a"%char <> NUL -> rstrip s = s.
Proof.
  intros L. unfold rstrip.
  rewrite <- (string_of_list_ascii_of_string s) at 2. f_equal.
  rewrite <- (rev_involutive (list_ascii_of_string s)) at 2. f_equal.
  rewrite <- (rev_involutive (list_ascii_of_string s)) in L.
  destruct (rev (list_ascii_of_string s)) as [|c l]; [reflexivity|].
  cbn in L. rewrite last_last in L. cbn.
  destruct (Ascii.eqb_spec c NUL); congruence.
Qed.

(** *** The topic field *)

Lemma String_build_ok (n : nat) (s : string) :
  str_is_ascii s = true -> (String.length s <= n)%nat ->
  String_build n s = Ok (list_byte_of_string (ljust n s)).
Proof.
  intros A L. unfold String_build, ascii_encode.
  rewrite str_is_ascii_ljust, A. cbn.
  rewrite length_list_byte, length_ljust.
  now replace (Nat.max n (String.length s)) with n by lia; rewrite Nat.eqb_refl.
Qed.

Lemma String_build_long (n : nat) (s : string) :
  str_is_ascii s = true -> (n < String.length s)%nat ->
  String_build n s = Raise FieldError.
Proof.
  intros A L. unfold String_build, ascii_encode.
  rewrite str_is_ascii_ljust, A. cbn.
  rewrite length_list_byte, length_ljust.
  destruct (Nat.eqb_spec (Nat.max n (String.length s)) n); [lia | reflexivity].
Qed.

Lemma String_build_not_ascii (n : nat) (s : string) :
  str_is_ascii s = false -> String_build n s = Raise UnicodeError.
Proof.
  intros A. unfold String_build, ascii_encode.
  now rewrite str_is_ascii_ljust, A.
Qed.

Lemma String_build_inv (n : nat) (s : string) (b : bytes) :
  String_build n s = Ok b ->
  str_is_ascii s = true /\ (String.length s <= n)%nat /\
  b = list_byte_of_string (ljust n s) /\ length b = n.
Proof.
  intros E. destruct (str_is_ascii s) eqn:A.
  - destruct (Nat.le_gt_cases (String.length s) n) as [L|L].
    + rewrite String_build_ok in E by assumption. injection E as <-.
      repeat split; auto. rewrite length_list_byte, length_ljust. lia.
    + now rewrite String_build_long in E.
  - now rewrite String_build_not_ascii in E.
Qed.

Lemma String_parse_build (n : nat) (s : string) (b rest : bytes) :
  String_build n s = Ok b -> String_parse n (b ++ rest) = Ok (rstrip s, rest).
Proof.
  intros E. apply String_build_inv in E as (A & L & -> & N).
  unfold String_parse. rewrite field_app by assumption. cbn.
  unfold ascii_decode. rewrite string_of_list_byte_of_string.
  rewrite str_is_ascii_ljust, A. cbn. now rewrite rstrip_ljust.
Qed.

(** *** The two headers *)

Definition block_header_ok (h : block_header) : Prop :=
  0 <= bh_length h < 2 ^ 32 /\ 0 <= bh_checksum h < 2 ^ 32.

Definition block_header_bytes (h : block_header) : bytes :=
  block_magic ++ le_split 4 (bh_length h) ++ le_split 4 (bh_checksum h)
  ++ Flag_build (bh_committed h) ++ repeat x00 16.

Lemma BlockHeader_build_ok (h : block_header) :
  block_header_ok h -> BlockHeader_build h = Ok (block_header_bytes h).
Proof.
  intros [L C]. unfold BlockHeader_build.
  now rewrite !ULInt_build_ok by assumption.
Qed.

Lemma BlockHeader_build_inv (h : block_header) (b : bytes) :
  BlockHeader_build h = Ok b -> block_header_ok h /\ b = block_header_bytes h.
Proof.
  unfold BlockHeader_build.
  destruct (ULInt_build 4 (bh_length h)) as [|len] eqn:L; [discriminate|].
  destruct (ULInt_build 4 (bh_checksum h)) as [|sum] eqn:C; [discriminate|].
  apply ULInt_build_inv in L as [L ->]. apply ULInt_build_inv in C as [C ->].
  cbn. intros [= <-]. now split.
Qed.

Lemma length_block_header_bytes (h : block_header) :
  length (block_header_bytes h) = BlockHeader_sizeof.
Proof.
  unfold block_header_bytes.
  rewrite !length_app, !length_le_split, repeat_length. reflexivity.
Qed.

Lemma BlockHeader_parse_bytes (h : block_header) :
  block_header_ok h -> BlockHeader_parse (block_header_bytes h) = Ok h.
Proof.
  intros [L C]. unfold BlockHeader_parse, block_header_bytes.
  rewrite Magic_parse_app. cbn [bind].
  rewrite ULInt_parse_split by assumption. cbn [bind].
  rewrite ULInt_parse_split by assumption. cbn [bind].
  rewrite Flag_parse_build. cbn [bind].
  rewrite <- (app_nil_r (repeat x00 16)), Magic_parse_app. cbn [bind].
  now destruct h.
Qed.

(** Parsing what was built gives the header back. *)
Lemma BlockHeader_parse_build (h : block_header) (b : bytes) :
  BlockHeader_build h = Ok b -> BlockHeader_parse b = Ok h.
Proof.
  intros E. apply BlockHeader_build_inv in E as [O ->].
  now apply BlockHeader_parse_bytes.
Qed.

Definition message_header_ok (h : message_header) : Prop :=
  0 <= mh_length h < 2 ^ 32 /\ 0 <= mh_timestamp h < 2 ^ 64 /\
  str_is_ascii (mh_topic h) = true /\ (String.length (mh_topic h) <= 64)%nat.

Definition message_header_bytes (h : message_header) : bytes :=
  repeat x00 8 ++ le_split 4 (mh_length h) ++ le_split 8 (mh_timestamp h)
  ++ list_byte_of_string (ljust 64 (mh_topic h)).



Lemma length_message_header_bytes (h : message_header) :
  (String.length (mh_topic h) <= 64)%nat ->
  length (message_header_bytes h) = MessageHeader_sizeof.
Proof.
  intros N. unfold message_header_bytes.
  rewrite !length_app, !length_le_split, repeat_length, length_list_byte, length_ljust.
  unfold MessageHeader_sizeof. lia.
Qed.

Lemma MessageHeader_parse_bytes (h : message_header) :
  message_header_ok h ->
  MessageHeader_parse (message_header_bytes h) =
  Ok {| mh_length := mh_length h;
        mh_timestamp := mh_timestamp h;
        mh_topic := rstrip (mh_topic h) |}.
Proof.
  intros (L & T & A & N). unfold MessageHeader_parse, message_header_bytes.
  rewrite Magic_parse_app. cbn [bind].
  rewrite ULInt_parse_split by assumption. cbn [bind].
  rewrite ULInt_parse_split by assumption. cbn [bind].
  rewrite <- (app_nil_r (list_byte_of_string _)).
  now rewrite (String_parse_build 64 (mh_topic h)) by now apply String_build_ok.
Qed.

(** ** The writer *)

Lemma dirty_init (path : string) : dirty (BrokeWriter_init path) = false.
Proof. reflexivity. Qed.

Lemma dirty_rollback (self : BrokeWriter) : dirty (rollback self) = false.
Proof. reflexivity. Qed.

(** The header [store] builds for a topic [t], a payload [p] and the clock
    reading [now]. *)
Definition header_of (now : Z) (t : string) (p : bytes) : message_header :=
  {| mh_length := Z.of_nat (length p); mh_timestamp := now; mh_topic := t |}.

(** The frame of one message in the stream of a block. *)
Definition frame (now : Z) (t : string) (p : bytes) : bytes :=
  message_header_bytes (header_of now t p) ++ p.









(** ** The file *)


Lemma write_at_app (d x b : bytes) (p : nat) :
  (length d <= p)%nat ->
  write_at (d ++ x) p b = d ++ write_at x (p - length d) b.
Proof.
  intros L. unfold write_at.
  rewrite firstn_app, firstn_all2 by assumption.
  rewrite skipn_app, (skipn_all2 d) by lia. rewrite length_app, <- app_assoc. cbn.
  replace (p - (length d + length x))%nat with (p - length d - length x)%nat by lia.
  now replace (p + length b - length d)%nat with (p - length d + length b)%nat by lia.
Qed.


Lemma truncate_to_app (d x : bytes) : truncate_to (d ++ x) (length d) = d.
Proof.
  unfold truncate_to.
  rewrite firstn_app, firstn_all, Nat.sub_diag, firstn_O, length_app.
  replace (length d - (length d + length x))%nat with 0%nat by lia.
  cbn. now rewrite !app_nil_r.
Qed.


(** ** commit *)

Section Commit.
Context `{Gzip}.

(** The header of the block holding [compressed]. *)
Definition header_for (compressed : bytes) (committed : bool) : block_header :=
  {| bh_length := Z.of_nat (length compressed);
     bh_checksum := _checksum compressed;
     bh_committed := committed |}.

Lemma header_for_ok (c : bytes) (b : bool) :
  Z.of_nat (length c) < 2 ^ 32 -> block_header_ok (header_for c b).
Proof.
  intros L. split; cbn; [lia | apply crc32_range].
Qed.


(** A block as it stands in the file once committed. *)
Definition block_bytes (compressed : bytes) : bytes :=
  block_header_bytes (header_for compressed true) ++ compressed.

#[local] Arguments write_at : simpl never.
#[local] Arguments truncate_to : simpl never.
#[local] Arguments block_header_bytes : simpl never.
#[local] Arguments header_for : simpl never.


Lemma take_lock_raises (l : list contention) (e : exn) :
  take_lock l = Raise e -> e = TimeoutError "Could not lock file".
Proof.
  destruct l as [|[start busy] l]; [discriminate|]. cbn.
  induction busy as [|t busy IH]; cbn; [discriminate|].
  destruct (t - start >? lock_timeout); [now intros [= <-] | exact IH].
Qed.

Lemma append_block_timeout (c : bytes) (s : world) (e : exn) :
  Z.of_nat (length c) < 2 ^ 32 -> hd None (faults s) = None ->
  take_lock (locks s) = Raise e ->
  exists s', append_block c s = (s', Raise e) /\
             disk s' = disk s /\ calls s' = calls s ++ [Open; Close] /\
             stdout s' = stdout s.
Proof.
  intros L F K. unfold append_block. fold (header_for c false).
  rewrite BlockHeader_build_ok by now apply header_for_ok.
  destruct s as [d p cs out fs ls]. cbn in F, K.
  unfold iobind, finally, with_lock, fp_open, fp_call, next_fault. cbn.
  destruct fs as [|f fs]; cbn in F; subst; cbn; rewrite K; cbn;
    (eexists; split; [reflexivity|]); cbn; now rewrite <- app_assoc.
Qed.

(** C7. [commit] on a writer that is not dirty returns at once: the world
    it leaves is the one it found (the same bytes in the file, no call made
    on it, nothing printed) and the writer is the same, still not dirty.
    After any [commit], whatever it ended with, the writer is not dirty, so
    a second [commit] with no [store] in between is such a return. *)
Theorem commit_idempotent (self : BrokeWriter) (s : world) :
  (dirty self = false ->
   commit self s = (self, s, Ok tt)) /\
  (forall w s' r, commit self s = (w, s', r) ->
                  dirty w = false /\ commit w s' = (w, s', Ok tt)).
Proof.
  split.
  - intros D. unfold commit. now rewrite D.
  - intros w s' r. unfold commit at 1. destruct (dirty self) eqn:D; cbn.
    + destruct (append_block _ s) as [s1 r1]. now intros [= <- <- <-].
    + intros [= <- <- <-]. split; [assumption|]. unfold commit. now rewrite D.
Qed.

(** C10. A dirty [commit] resets the buffer before it opens or locks the
    file: whatever it ends with, the writer it leaves is the one [rollback]
    gives, not dirty, with an empty buffer.  In particular, when the lock
    is not obtained, [commit] raises the [TimeoutError] with the file opened
    and closed and nothing else done to it, and the messages stored are
    gone. *)
Theorem commit_discards_buffer (self : BrokeWriter) (s : world) :
  dirty self = true ->
  (forall w s' r, commit self s = (w, s', r) ->
                  w = rollback self /\ dirty w = false /\ buffer w = []) /\
  (forall e, take_lock (locks s) = Raise e ->
             Z.of_nat (length (gz_compress (buffer self))) < 2 ^ 32 ->
             hd None (faults s) = None ->
             exists s', commit self s = (rollback self, s', Raise e) /\
                        e = TimeoutError "Could not lock file" /\
                        disk s' = disk s /\
                        calls s' = calls s ++ [Open; Close]).
Proof.
  intros D. split.
  - intros w s' r. unfold commit. rewrite D. cbn.
    destruct (append_block _ s) as [s1 r1]. now intros [= <- <- <-].
  - intros e K L F.
    destruct (append_block_timeout _ s e L F K) as (s' & E & Dk & C & _).
    exists s'. unfold commit. rewrite D. cbn. rewrite E.
    repeat split; auto. now apply take_lock_raises in K.
Qed.

End Commit.

(** A writer holding one message, and a file locked by someone else for
    more than the timeout. *)
Definition one_message : BrokeWriter :=
  fst (store (BrokeWriter_init "log") 1000 (PyStr "a") (PyBytes [x78])).

Definition locked (d : bytes) : world :=
  {| disk := d; fpos := 0; calls := []; stdout := []; faults := [];
     locks := [{| lk_start := 0; lk_busy := [250; 5250] |}] |}.

Lemma commit_idempotent_witness :
  commit (BrokeWriter_init "log") (quiet []) =
  (BrokeWriter_init "log", quiet [], Ok tt) /\
  (forall w s' r, commit one_message (quiet []) = (w, s', r) ->
                  dirty w = false /\ commit w s' = (w, s', Ok tt)).
Proof.
  split.
  - apply (commit_idempotent (BrokeWriter_init "log") (quiet [])). reflexivity.
  - apply (commit_idempotent one_message (quiet [])).
Defined.

Lemma commit_discards_buffer_witness :
  exists s', commit one_message (locked []) =
             (rollback one_message, s',
              Raise (TimeoutError "Could not lock file")) /\
             disk s' = [] /\ calls s' = [Open; Close].
Proof.
  destruct (commit_discards_buffer one_message (locked []) eq_refl) as [_ T].
  destruct (T (TimeoutError "Could not lock file") eq_refl) as (s' & E & _ & D & C).
  - vm_compute. reflexivity.
  - reflexivity.
  - exists s'. repeat split; assumption.
Defined.

(** *** The order of the calls of a commit *)







Section CommitOrder.
Context `{Gzip}.

#[local] Arguments block_header_bytes : simpl never.
#[local] Arguments header_for : simpl never.


End CommitOrder.



(** *** A failing write *)

Section CommitFailure.
Context `{Gzip}.

#[local] Arguments write_at : simpl never.
#[local] Arguments truncate_to : simpl never.
#[local] Arguments block_header_bytes : simpl never.
#[local] Arguments header_for : simpl never.

Lemma truncate_written (d x : bytes) (p : nat) (b : bytes) :
  (length d <= p)%nat ->
  truncate_to (write_at (d ++ x) p b) (length d) = d.
Proof. intros L. now rewrite write_at_app, truncate_to_app. Qed.



End CommitFailure.



(** ** The block scanner *)

Lemma read_here (pre x post : bytes) :
  read (pre ++ x ++ post) (length pre) (length x) = x.
Proof.
  unfold read. rewrite skipn_app, skipn_all, Nat.sub_diag. cbn.
  now rewrite firstn_app, firstn_all, Nat.sub_diag, firstn_O, app_nil_r.
Qed.

Lemma read_shift (d x : bytes) (p n : nat) :
  (length d <= p)%nat -> read (d ++ x) p n = read x (p - length d) n.
Proof.
  intros L. unfold read. now rewrite skipn_app, (skipn_all2 d) by assumption.
Qed.

Lemma read_past (data : bytes) (p n : nat) :
  (length data <= p)%nat -> read data p n = [].
Proof. intros L. unfold read. rewrite skipn_all2 by assumption. apply firstn_nil. Qed.

Lemma length_read (data : bytes) (p n : nat) :
  length (read data p n) = Nat.min n (length data - p).
Proof. unfold read. now rewrite length_firstn, length_skipn. Qed.

Lemma read_fully_here (pre x post : bytes) :
  read_fully (pre ++ x ++ post) (length pre) (length x) = Ok x.
Proof. unfold read_fully. now rewrite read_here, Nat.eqb_refl. Qed.

Lemma read_fully_shift (d x : bytes) (p n : nat) :
  (length d <= p)%nat -> read_fully (d ++ x) p n = read_fully x (p - length d) n.
Proof. intros L. unfold read_fully. now rewrite read_shift. Qed.

(** A block as it may stand in a file: a header and the bytes after it. *)
Record raw_block : Type := {
  rb_header : block_header;
  rb_body : bytes
}.

Definition raw_bytes (b : raw_block) : bytes :=
  block_header_bytes (rb_header b) ++ rb_body b.

Definition log_bytes (bs : list raw_block) : bytes := concat (map raw_bytes bs).

(** The header fits its fields and tells the length of the body. *)
Definition framed (b : raw_block) : Prop :=
  block_header_ok (rb_header b) /\
  Z.of_nat (length (rb_body b)) = bh_length (rb_header b).

(** The block is committed and not empty. *)
Definition readable (b : raw_block) : bool :=
  bh_committed (rb_header b) && negb (bh_length (rb_header b) =? 0).

Definition checksum_ok (b : raw_block) : bool :=
  _checksum (rb_body b) =? bh_checksum (rb_header b).

(** A block the scanner can pass: framed, and, if it is readable, with
    the checksum of its body in its header. *)
Definition sound (b : raw_block) : Prop :=
  framed b /\ (readable b = true -> checksum_ok b = true).

Definition free (c : contention) : Prop :=
  lock_tries lock_timeout (lk_start c) (lk_busy c) = Ok tt.

Lemma take_lock_free (l : list contention) : Forall free l -> take_lock l = Ok tt.
Proof. now destruct 1. Qed.

Lemma Forall_tl {A} (P : A -> Prop) (l : list A) : Forall P l -> Forall P (tl l).
Proof. destruct 1; cbn; auto. Qed.

Lemma length_raw_bytes (b : raw_block) :
  length (raw_bytes b) = (BlockHeader_sizeof + length (rb_body b))%nat.
Proof. unfold raw_bytes. now rewrite length_app, length_block_header_bytes. Qed.

Lemma block_header_bytes_cons (h : block_header) :
  exists x l, block_header_bytes h = x :: l.
Proof.
  destruct (block_header_bytes h) as [|x l] eqn:E; [|eauto].
  apply (f_equal (@length byte)) in E. now rewrite length_block_header_bytes in E.
Qed.

(** What a turn of the scanner does with a framed block at its position. *)
Lemma turn_framed (pre post : bytes) (b : raw_block) :
  framed b ->
  iter_blocks_turn (pre ++ raw_bytes b ++ post) (length pre) =
  if readable b
  then if checksum_ok b
       then Yield (rb_body b) (length pre + length (raw_bytes b))
       else Raised (IOError "checksum for block invalid")
  else Continue (length pre + length (raw_bytes b)).
Proof.
  intros [O L]. unfold raw_bytes. rewrite <- app_assoc.
  assert (R : read (pre ++ block_header_bytes (rb_header b) ++ rb_body b ++ post)
                   (length pre) BlockHeader_sizeof
              = block_header_bytes (rb_header b)).
  { rewrite <- (length_block_header_bytes (rb_header b)). apply read_here. }
  unfold iter_blocks_turn. rewrite !R.
  destruct (block_header_bytes_cons (rb_header b)) as (x & l & E).
  rewrite E at 1. cbv beta iota.
  rewrite BlockHeader_parse_bytes by assumption.
  unfold readable, checksum_ok. rewrite length_app.
  destruct (Z.eqb_spec (bh_length (rb_header b)) 0) as [Z|NZ].
  - rewrite andb_false_r. f_equal.
    assert (length (rb_body b) = 0%nat) by lia. lia.
  - rewrite andb_true_r. destruct (bh_committed (rb_header b)); cbn [negb].
    + replace (length pre + length (block_header_bytes (rb_header b)))%nat
        with (length (pre ++ block_header_bytes (rb_header b)))
        by apply length_app.
      rewrite <- L, Nat2Z.id.
      rewrite (app_assoc pre), read_fully_here.
      destruct (_checksum (rb_body b) =? bh_checksum (rb_header b)); cbn [negb];
        [|reflexivity].
      f_equal. rewrite length_app. lia.
    + f_equal. lia.
Qed.

Lemma turn_eof (data : bytes) (p : nat) :
  (length data <= p)%nat -> iter_blocks_turn data p = Break.
Proof. intros L. unfold iter_blocks_turn. now rewrite read_past. Qed.

Lemma log_bytes_cons (b : raw_block) (bs : list raw_block) :
  log_bytes (b :: bs) = raw_bytes b ++ log_bytes bs.
Proof. reflexivity. Qed.

Lemma log_bytes_app (xs ys : list raw_block) :
  log_bytes (xs ++ ys) = log_bytes xs ++ log_bytes ys.
Proof. unfold log_bytes. now rewrite map_app, concat_app. Qed.

Lemma length_log_bytes (bs : list raw_block) :
  (length bs <= length (log_bytes bs))%nat.
Proof.
  induction bs as [|b bs IH]; [cbn; lia|].
  rewrite log_bytes_cons, length_app, length_raw_bytes.
  unfold BlockHeader_sizeof. cbn [length]. lia.
Qed.

Lemma tl_skipn {A} (n : nat) (l : list A) : skipn n (tl l) = skipn (S n) l.
Proof. now destruct l; [rewrite !skipn_nil|]. Qed.

(** The scanner passes sound blocks one by one: it yields the body of each
    readable one, and goes on after the last with what is left of its
    fuel. *)
Lemma loop_sound_blocks (bs : list raw_block) (pre rest : bytes)
    (l : list contention) (fuel : nat) :
  Forall sound bs -> Forall free l ->
  iter_blocks_loop (length bs + fuel) (pre ++ log_bytes bs ++ rest)
                   {| pos := length pre; hlocks := l |} =
  let (ys, e) :=
    iter_blocks_loop fuel (pre ++ log_bytes bs ++ rest)
                     {| pos := length pre + length (log_bytes bs);
                        hlocks := skipn (length bs) l |} in
  (map rb_body (filter readable bs) ++ ys, e).
Proof.
  revert pre l. induction bs as [|b bs IH]; intros pre l S F.
  - cbn [length log_bytes map concat filter app Nat.add skipn].
    rewrite Nat.add_0_r. now destruct (iter_blocks_loop _ _ _).
  - inversion S as [|? ? [Fr Ck] S']; subst.
    cbn [length Nat.add iter_blocks_loop hlocks pos].
    rewrite take_lock_free by assumption.
    rewrite log_bytes_cons, <- (app_assoc (raw_bytes b)).
    rewrite turn_framed by assumption.
    specialize (IH (pre ++ raw_bytes b) (tl l) S' (Forall_tl _ _ F)).
    rewrite length_app, <- !app_assoc, tl_skipn in IH.
    cbn [filter map]. rewrite length_app, Nat.add_assoc.
    destruct (readable b) eqn:R.
    + rewrite Ck by reflexivity. rewrite IH.
      now destruct (iter_blocks_loop fuel _ _).
    + exact IH.
Qed.

Lemma Magic_parse_ok (d s r : bytes) :
  Magic_parse d s = Ok r -> s = d ++ r.
Proof.
  unfold Magic_parse. destruct (field (length d) s) as [|[m t]] eqn:F; [discriminate|].
  cbn [bind]. destruct (bytes_eqb m d) eqn:E; [|discriminate].
  intros [= <-]. apply bytes_eqb_eq in E as <-. now apply field_ok in F.
Qed.

Lemma ULInt_parse_ok (n : nat) (s r : bytes) (v : Z) :
  ULInt_parse n s = Ok (v, r) ->
  exists a, s = a ++ r /\ length a = n /\ v = le_combine a.
Proof.
  unfold ULInt_parse. destruct (field n s) as [|[a t]] eqn:F; [discriminate|].
  cbn [bind]. intros [= <- <-]. apply field_ok in F as [-> L]. eauto.
Qed.

Lemma Flag_parse_ok (s r : bytes) (b : bool) :
  Flag_parse s = Ok (b, r) ->
  exists a, s = a :: r /\ b = bytes_eqb [a] [x01].
Proof.
  unfold Flag_parse. destruct (field 1 s) as [|[a t]] eqn:F; [discriminate|].
  cbn [bind]. intros [= <- <-]. apply field_ok in F as [-> L].
  destruct a as [|a [|]]; try discriminate. exists a. now split.
Qed.

(** A header that parses is made of its five fields. *)
Lemma BlockHeader_parse_ok (s : bytes) (h : block_header) :
  BlockHeader_parse s = Ok h ->
  exists len sum flag rest,
    s = block_magic ++ len ++ sum ++ flag :: repeat x00 16 ++ rest /\
    length len = 4%nat /\ length sum = 4%nat /\
    h = {| bh_length := le_combine len;
           bh_checksum := le_combine sum;
           bh_committed := bytes_eqb [flag] [x01] |}.
Proof.
  unfold BlockHeader_parse.
  destruct (Magic_parse block_magic s) as [|s1] eqn:P1; [discriminate|].
  cbn [bind].
  destruct (ULInt_parse 4 s1) as [|[len s2]] eqn:P2; [discriminate|].
  cbn [bind].
  destruct (ULInt_parse 4 s2) as [|[sum s3]] eqn:P3; [discriminate|].
  cbn [bind].
  destruct (Flag_parse s3) as [|[flag s4]] eqn:P4; [discriminate|].
  cbn [bind].
  destruct (Magic_parse (repeat x00 16) s4) as [|s5] eqn:P5; [discriminate|].
  cbn [bind]. intros [= <-].
  apply Magic_parse_ok in P1 as ->. apply ULInt_parse_ok in P2 as (a & -> & L1 & ->).
  apply ULInt_parse_ok in P3 as (b & -> & L2 & ->).
  apply Flag_parse_ok in P4 as (c & -> & ->). apply Magic_parse_ok in P5 as ->.
  exists a, b, c, s5. repeat split; auto.
Qed.

Lemma BlockHeader_parse_length (s : bytes) (h : block_header) :
  BlockHeader_parse s = Ok h -> (BlockHeader_sizeof <= length s)%nat.
Proof.
  intros P. apply BlockHeader_parse_ok in P as (a & b & c & r & -> & L1 & L2 & _).
  rewrite !length_app. cbn [length]. rewrite length_app, repeat_length, L1, L2.
  unfold BlockHeader_sizeof. cbn. lia.
Qed.

(** Whatever the file holds, a turn yields only the bytes that follow a
    header that parses, is committed and gives their number, not zero, and
    their checksum. *)
Lemma turn_yield_inv (data : bytes) (p p' : nat) (block : bytes) :
  iter_blocks_turn data p = Yield block p' ->
  exists h,
    BlockHeader_parse (read data p BlockHeader_sizeof) = Ok h /\
    bh_committed h = true /\ bh_length h <> 0 /\
    block = read data (p + BlockHeader_sizeof) (Z.to_nat (bh_length h)) /\
    length block = Z.to_nat (bh_length h) /\
    _checksum block = bh_checksum h /\
    p' = (p + BlockHeader_sizeof + length block)%nat.
Proof.
  unfold iter_blocks_turn.
  destruct (read data p BlockHeader_sizeof) as [|x hb] eqn:R; [discriminate|].
  destruct (BlockHeader_parse (x :: hb)) as [e|h] eqn:P; [discriminate|].
  assert (N : length (x :: hb) = BlockHeader_sizeof).
  { apply BlockHeader_parse_length in P.
    assert (T : (length (x :: hb) <= BlockHeader_sizeof)%nat)
      by (rewrite <- R, length_read; lia).
    lia. }
  rewrite N.
  destruct (Z.eqb_spec (bh_length h) 0) as [|NZ]; [discriminate|].
  destruct (bh_committed h) eqn:C; cbn [negb]; [|discriminate].
  destruct (read_fully data _ _) as [|bb] eqn:RF; [discriminate|].
  destruct (Z.eqb_spec (_checksum bb) (bh_checksum h)) as [CK|]; cbn [negb];
    [|discriminate].
  intros [= <- <-]. exists h.
  unfold read_fully in RF.
  destruct (Nat.eqb_spec (length (read data (p + BlockHeader_sizeof)
                                        (Z.to_nat (bh_length h))))
                         (Z.to_nat (bh_length h))) as [LN|]; cbn [negb] in RF;
    [|discriminate].
  injection RF as <-. repeat split; auto.
Qed.

Lemma loop_yield_inv (fuel : nat) (data : bytes) (fp : handle) (block : bytes) :
  In block (fst (iter_blocks_loop fuel data fp)) ->
  exists p p', iter_blocks_turn data p = Yield block p'.
Proof.
  revert fp. induction fuel as [|fuel IH]; intros fp; cbn; [easy|].
  destruct (take_lock (hlocks fp)); [easy|].
  destruct (iter_blocks_turn data (pos fp)) as [|q|b q|e] eqn:T; cbn; try easy.
  - apply IH.
  - destruct (iter_blocks_loop fuel data _) as [ys e] eqn:L. cbn.
    intros [<-|I]; [eauto|]. apply (IH {| pos := q; hlocks := tl (hlocks fp) |}).
    now rewrite L.
Qed.

Lemma Forall_skipn {A} (P : A -> Prop) (n : nat) (l : list A) :
  Forall P l -> Forall P (skipn n l).
Proof.
  revert l. induction n; intros l F; [exact F|].
  destruct F; cbn; auto.
Qed.

Lemma tl_of_skipn {A} (n : nat) (l : list A) : tl (skipn n l) = skipn (S n) l.
Proof.
  revert l. induction n; intros [|a l]; cbn; try reflexivity.
  rewrite IHn. now destruct l.
Qed.

Section Scan.
Context `{Gzip}.

Lemma yield_from_blocks_fst (xs : list bytes) (e e' : ending handle) :
  fst (yield_from_blocks xs e) = fst (yield_from_blocks xs e').
Proof.
  induction xs as [|x xs IH]; cbn; [reflexivity|].
  destruct (block_messages x) as [ms [u|x0|]]; try reflexivity.
  destruct (yield_from_blocks xs e), (yield_from_blocks xs e'). cbn in *.
  now subst.
Qed.

(** The messages read do not depend on how the scan of the blocks ends. *)
Lemma yield_from_blocks_app (xs ys : list bytes) (e : ending handle) :
  yield_from_blocks (xs ++ ys) e =
  match yield_from_blocks xs (Stop rewound) with
  | (ms, Stop _) => let (ms', e') := yield_from_blocks ys e in (ms ++ ms', e')
  | r => r
  end.
Proof.
  induction xs as [|x xs IH]; cbn.
  - now destruct (yield_from_blocks ys e).
  - destruct (block_messages x) as [ms [u|x0|]]; try reflexivity.
    rewrite IH. destruct (yield_from_blocks xs (Stop rewound)) as [ms1 [s1|x1|]];
      try reflexivity.
    destruct (yield_from_blocks ys e). now rewrite app_assoc.
Qed.

(** C2. A file made of sound blocks (each with a header that fits its
    fields and tells the number of bytes that follow, which for a block that
    is not committed may be any bytes) is scanned to its end, and the scan
    yields the bodies of the blocks that are committed and not empty, in
    their order, and nothing else: a block of length zero is passed, and a
    block that is not committed is passed by moving its length forward,
    whatever its bytes are.  So a block left uncommitted between sound
    blocks adds no message: the messages read are those of the file without
    it.  And whatever a file holds, every block of bytes a scan yields
    stands behind a header that is committed and tells its length, not
    zero. *)
Theorem scan_skips_anomalies (bs : list raw_block) (l : list contention) :
  Forall sound bs -> Forall free l ->
  iter_blocks (log_bytes bs) {| pos := 0; hlocks := l |} =
  (map rb_body (filter readable bs),
   Stop {| pos := length (log_bytes bs); hlocks := skipn (S (length bs)) l |}) /\
  (forall before after crashed,
      bs = before ++ crashed :: after ->
      bh_committed (rb_header crashed) = false ->
      fst (read_messages (log_bytes bs) {| pos := 0; hlocks := l |}) =
      fst (read_messages (log_bytes (before ++ after)) {| pos := 0; hlocks := l |})) /\
  (forall data fp block,
      In block (fst (iter_blocks data fp)) ->
      exists p h,
        BlockHeader_parse (read data p BlockHeader_sizeof) = Ok h /\
        bh_committed h = true /\ bh_length h <> 0 /\
        block = read data (p + BlockHeader_sizeof) (Z.to_nat (bh_length h))).
Proof.
  intros S F.
  assert (Scan : forall bs l, Forall sound bs -> Forall free l ->
            iter_blocks (log_bytes bs) {| pos := 0; hlocks := l |} =
            (map rb_body (filter readable bs),
             Stop {| pos := length (log_bytes bs);
                     hlocks := skipn (Datatypes.S (length bs)) l |})).
  { clear. intros bs l S F. unfold iter_blocks.
    pose proof (length_log_bytes bs) as N.
    replace (Datatypes.S (length (log_bytes bs)))
      with (length bs + Datatypes.S (length (log_bytes bs) - length bs))%nat by lia.
    pose proof (loop_sound_blocks bs [] [] l
                  (Datatypes.S (length (log_bytes bs) - length bs)) S F) as E.
    cbn [app length Nat.add] in E. rewrite app_nil_r in E. rewrite E.
    cbn [iter_blocks_loop hlocks pos].
    rewrite take_lock_free by (apply Forall_skipn; assumption).
    rewrite turn_eof by lia. now rewrite app_nil_r, tl_of_skipn. }
  split; [now apply Scan|]. split.
  - intros before after crashed -> C. unfold read_messages.
    rewrite !Scan; auto.
    + rewrite !filter_app. cbn [filter]. unfold readable at 2. rewrite C.
      cbn [andb]. apply yield_from_blocks_fst.
    + apply Forall_app in S as [S1 S2]. inversion S2; subst.
      apply Forall_app; auto.
  - intros data fp block I. apply loop_yield_inv in I as (p & p' & T).
    apply turn_yield_inv in T as (h & P & C & N & B & _).
    exists p, h. auto.
Qed.

End Scan.

(** A block as [commit] leaves it for the bytes [compressed]. *)
Definition committed_block (compressed : bytes) : raw_block :=
  {| rb_header := header_for compressed true; rb_body := compressed |}.

(** A file with a committed block, a block a writer left uncommitted, an
    empty block, and another committed block. *)
Definition crashed_block : raw_block :=
  {| rb_header := {| bh_length := 3; bh_checksum := 0; bh_committed := false |};
     rb_body := [x01; x02; x03] |}.

Definition empty_block : raw_block :=
  {| rb_header := {| bh_length := 0; bh_checksum := 0; bh_committed := true |};
     rb_body := [] |}.

Definition example_log : list raw_block :=
  [committed_block (stored_compress (frame 1000 "a" [x78]));
   crashed_block;
   empty_block;
   committed_block (stored_compress (frame 1001 "b" [x79]))].

Lemma example_log_sound : Forall sound example_log.
Proof.
  repeat constructor; try (vm_compute; easy).
Qed.

Lemma scan_skips_anomalies_witness :
  iter_blocks (log_bytes example_log) rewound =
  ([stored_compress (frame 1000 "a" [x78]);
    stored_compress (frame 1001 "b" [x79])],
   Stop {| pos := length (log_bytes example_log); hlocks := [] |}) /\
  fst (read_messages (log_bytes example_log) rewound) =
  [{| topic := "a"; time := 1000; payload := [x78] |};
   {| topic := "b"; time := 1001; payload := [x79] |}].
Proof.
  destruct (scan_skips_anomalies example_log [] example_log_sound (Forall_nil _))
    as (S & C & _).
  split; [exact S|]. unfold rewound.
  rewrite (C [committed_block (stored_compress (frame 1000 "a" [x78]))]
             [empty_block; committed_block (stored_compress (frame 1001 "b" [x79]))]
             crashed_block eq_refl eq_refl).
  vm_compute. reflexivity.
Defined.
